(** * The nextTick scheduler of src/core/util/next-tick.ts

    A shallow embedding of the module's state (the [callbacks] queue, the
    [pending] flag, [timerFunc], [isUsingMicroTask]) and of its two
    functions, [flushCallbacks] and [nextTick], with explicit state passing.
    Calls that leave the module (host timers, the promise resolver, the
    error handler, the tasks themselves) are recorded in a log. *)

From stdpp Require Import prelude strings gmap.

(** ** Values, caller code, tasks *)

(** JavaScript values that travel through the scheduler: the [ctx] argument
    and whatever a callback throws.  The module never looks inside them, but
    the resolve function of a promise does: it reads the [then] property of
    the value it is given.  [VObject] has no callable [then]; [VThenable]
    has one; reading the [then] of [VThenThrows ref err] throws the object
    [err]. *)
Inductive value : Type :=
| VUndefined
| VObject (ref : nat)
| VThenable (ref : nat)
| VThenThrows (ref err : nat).

#[global] Instance value_eq_dec : EqDecision value.
Proof. solve_decision. Defined.

(** What a piece of caller code (a callback, or a synchronous turn of the
    application) can do to this module: return, throw, or call the exported
    [nextTick] and go on with its result ([Some p] for a promise, [None]
    for [undefined]).  [callbacks], [pending] and [flushCallbacks] are not
    exported, so nothing else reaches the module's state. *)
#[warnings="-register-all"]
Inductive code : Type :=
| Return
| Throw (e : value)
| NextTick (cb : option (value -> code)) (ctx : value) (k : option nat -> code).

(** The arrow function pushed at line 140.  It closes over [cb], [ctx] and
    the variable [_resolve] of its activation of [nextTick]; [task_id]
    names that activation, and the variable itself lives in
    [resolvers] below because it is assigned after the push. *)
Record task : Type := Task {
  task_id : nat;
  task_cb : option (value -> code);
  task_ctx : value
}.

(** JavaScript truthiness of the optional [cb] argument. *)
Definition truthy (cb : option (value -> code)) : bool :=
  match cb with Some _ => true | None => false end.

(** ** The host *)

(** What the module reads from its environment.  [isNative], [isIE] and
    [isIOS] come from ./env; the module only uses their boolean results. *)
Record host : Type := Host {
  Promise_defined : bool;            (* typeof Promise !== 'undefined' *)
  Promise_isNative : bool;           (* isNative(Promise) *)
  isIE : bool;
  isIOS : bool;
  MutationObserver_defined : bool;   (* typeof MutationObserver !== 'undefined' *)
  MutationObserver_isNative : bool;  (* isNative(MutationObserver) *)
  MutationObserver_toString : string;
  setImmediate_defined : bool;       (* typeof setImmediate !== 'undefined' *)
  setImmediate_isNative : bool       (* isNative(setImmediate) *)
}.

(** The four bodies [timerFunc] can be bound to. *)
Inductive strategy : Type :=
| ViaPromise
| ViaMutationObserver
| ViaSetImmediate
| ViaSetTimeout.

#[global] Instance strategy_eq_dec : EqDecision strategy.
Proof. solve_decision. Defined.

(** A promise created by [nextTick].  It is pending in the first two
    states: in [Unresolved] its resolve function has not been called; in
    [Following t] it has been called with the thenable [t], which decides
    when and how the promise settles, if ever. *)
Inductive promise_state : Type :=
| Unresolved
| Following (t : value)
| Fulfilled (v : value)
| Rejected (r : value).

(** Calls leaving the module, in the order they happen. *)
Inductive event : Type :=
| EPromiseThen                      (* p.then(flushCallbacks) *)
| ESetTimeoutNoop                   (* setTimeout(noop) *)
| EMutate (data : nat)              (* textNode.data = String(counter) *)
| ESetImmediate                     (* setImmediate(flushCallbacks) *)
| ESetTimeout (delay : nat)         (* setTimeout(flushCallbacks, 0) *)
| EInvoke (id : nat)                (* copies[i]() *)
| EHandleError (e ctx : value) (info : string)
| EResolve (p : nat) (v : value).   (* _resolve(ctx) *)

(** ** Module state *)

Record state : Type := State {
  isUsingMicroTask : bool;
  callbacks : list task;
  pending : bool;
  timerFunc : strategy;
  counter : nat;                 (* the MutationObserver branch's counter *)
  calls : nat;                   (* activations of nextTick so far *)
  resolvers : gmap nat nat;      (* _resolve of each activation, once assigned *)
  promises : list promise_state; (* promises created by nextTick *)
  scheduled : nat;               (* runs of flushCallbacks the host still owes *)
  log : list event
}.

Definition set_callbacks (q : list task) (s : state) : state :=
  State (isUsingMicroTask s) q (pending s) (timerFunc s) (counter s) (calls s)
        (resolvers s) (promises s) (scheduled s) (log s).

Definition set_pending (b : bool) (s : state) : state :=
  State (isUsingMicroTask s) (callbacks s) b (timerFunc s) (counter s) (calls s)
        (resolvers s) (promises s) (scheduled s) (log s).

Definition set_counter (c : nat) (s : state) : state :=
  State (isUsingMicroTask s) (callbacks s) (pending s) (timerFunc s) c (calls s)
        (resolvers s) (promises s) (scheduled s) (log s).

Definition set_calls (n : nat) (s : state) : state :=
  State (isUsingMicroTask s) (callbacks s) (pending s) (timerFunc s) (counter s) n
        (resolvers s) (promises s) (scheduled s) (log s).

Definition set_resolvers (r : gmap nat nat) (s : state) : state :=
  State (isUsingMicroTask s) (callbacks s) (pending s) (timerFunc s) (counter s)
        (calls s) r (promises s) (scheduled s) (log s).

Definition set_promises (ps : list promise_state) (s : state) : state :=
  State (isUsingMicroTask s) (callbacks s) (pending s) (timerFunc s) (counter s)
        (calls s) (resolvers s) ps (scheduled s) (log s).

Definition set_scheduled (n : nat) (s : state) : state :=
  State (isUsingMicroTask s) (callbacks s) (pending s) (timerFunc s) (counter s)
        (calls s) (resolvers s) (promises s) n (log s).

Definition emit (e : event) (s : state) : state :=
  State (isUsingMicroTask s) (callbacks s) (pending s) (timerFunc s) (counter s)
        (calls s) (resolvers s) (promises s) (scheduled s) (log s ++ [e]).

(** The host primitives all have the same contract: the function handed to
    them is run once, later.  For [flushCallbacks] that is one more owed
    run. *)
Definition host_schedule_flush (s : state) : state :=
  set_scheduled (S (scheduled s)) s.

(** Modelled from the spec: [handleError] of ./error is not part of the
    sources at hand; section 6 gives its interface,
    report(error, context, originTag), called once per isolated failure.
    It records the report and returns. *)
Definition handleError (e ctx : value) (info : string) (s : state) : state :=
  emit (EHandleError e ctx info) s.

(** What the resolve function of a promise makes of the value it is given
    (ECMAScript, Promise Resolve Functions): a value whose [then] cannot be
    read rejects the promise with the error thrown, a value with a callable
    [then] is followed, any other value fulfils the promise.  (The value is
    never the promise itself: [ctx] is given before the promise exists.) *)
Definition resolution (v : value) : promise_state :=
  match v with
  | VThenable _ => Following v
  | VThenThrows _ err => Rejected (VObject err)
  | VUndefined | VObject _ => Fulfilled v
  end.

(** The [resolve] function a promise hands to its executor: its first call
    resolves the promise, later calls are ignored. *)
Definition settle (v : value) (ps : promise_state) : promise_state :=
  match ps with
  | Unresolved => resolution v
  | Following t => Following t
  | Fulfilled w => Fulfilled w
  | Rejected r => Rejected r
  end.

Definition resolve (p : nat) (v : value) (s : state) : state :=
  emit (EResolve p v) (set_promises (alter (settle v) p (promises s)) s).

(** ** Reading the log *)

Definition is_invoke (e : event) : option nat :=
  match e with EInvoke id => Some id | _ => None end.

(** Activations whose task has been invoked, in order of invocation. *)
Definition invoked (l : list event) : list nat := omap is_invoke l.

Definition is_trigger (e : event) : bool :=
  match e with
  | EPromiseThen | EMutate _ | ESetImmediate | ESetTimeout _ => true
  | _ => false
  end.

(** Number of times [timerFunc] asked the host for a flush. *)
Definition triggers (l : list event) : nat := length (filter is_trigger l).

Definition is_report (e : event) : bool :=
  match e with EHandleError _ _ _ => true | _ => false end.

Definition reports (l : list event) : list event := filter is_report l.

Section Scheduler.

Variable h : host.

(** ** Module initialisation (lines 14-19 and the chain at 66-130) *)

Definition initial (f : strategy) (micro : bool) : state :=
  State micro [] false f 1 0 ∅ [] 0 [].

Definition module_init : state :=
  if Promise_defined h && Promise_isNative h then
    initial ViaPromise true
  else if negb (isIE h) && MutationObserver_defined h &&
          (MutationObserver_isNative h ||
           String.eqb (MutationObserver_toString h)
                      "[object MutationObserverConstructor]") then
    initial ViaMutationObserver true
  else if setImmediate_defined h && setImmediate_isNative h then
    initial ViaSetImmediate false
  else
    initial ViaSetTimeout false.

(** ** timerFunc *)

Definition call_timerFunc (s : state) : state :=
  match timerFunc s with
  | ViaPromise =>
      let s1 := emit EPromiseThen (host_schedule_flush s) in
      if isIOS h then emit ESetTimeoutNoop s1 else s1
  | ViaMutationObserver =>
      let c := (counter s + 1) mod 2 in
      emit (EMutate c) (host_schedule_flush (set_counter c s))
  | ViaSetImmediate => emit ESetImmediate (host_schedule_flush s)
  | ViaSetTimeout => emit (ESetTimeout 0) (host_schedule_flush s)
  end.

(** ** nextTick (lines 138-161) *)

Definition nextTick (cb : option (value -> code)) (ctx : value) (s : state)
  : state * option nat :=
  let id := calls s in
  let s1 := set_callbacks (callbacks s ++ [Task id cb ctx]) (set_calls (S id) s) in
  let s2 := if pending s1 then s1 else call_timerFunc (set_pending true s1) in
  if negb (truthy cb) && Promise_defined h then
    let p := length (promises s2) in
    (set_resolvers (<[id := p]> (resolvers s2))
       (set_promises (promises s2 ++ [Unresolved]) s2), Some p)
  else (s2, None).

(** Run caller code to its end; [Some e] is an exception leaving it. *)
Fixpoint run_code (c : code) (s : state) : state * option value :=
  match c with
  | Return => (s, None)
  | Throw e => (s, Some e)
  | NextTick cb ctx k =>
      let '(s', r) := nextTick cb ctx s in run_code (k r) s'
  end.

(** The body of a task (lines 141-149). *)
Definition call_task (t : task) (s : state) : state :=
  match task_cb t with
  | Some f =>
      let '(s', r) := run_code (f (task_ctx t)) s in
      match r with
      | None => s'
      | Some e => handleError e (task_ctx t) "nextTick" s'
      end
  | None =>
      match resolvers s !! task_id t with
      | Some p => resolve p (task_ctx t) s
      | None => s
      end
  end.

(** ** flushCallbacks (lines 21-28) *)

(** The loop [for (let i = 0; i < copies.length; i++) copies[i]()], with
    [n] the iterations left.  Reading past the end would call [undefined]. *)
Definition invoke (t : task) (s : state) : state :=
  call_task t (emit (EInvoke (task_id t)) s).

Fixpoint for_copies (copies : list task) (i n : nat) (s : state) : option state :=
  match n with
  | 0 => Some s
  | S n' =>
      match copies !! i with
      | None => None
      | Some t => for_copies copies (S i) n' (invoke t s)
      end
  end.

Definition flushCallbacks (s : state) : option state :=
  let s1 := set_pending false s in
  let copies := drop 0 (callbacks s1) in
  let s2 := set_callbacks (take 0 (callbacks s1)) s1 in
  for_copies copies 0 (length copies) s2.

(** [flushCallbacks] as section 4.3 of the specification words it: reset
    the flag, take a snapshot, clear the live queue, then invoke every
    snapshotted task in order. *)
Definition flush_spec (s : state) : state :=
  let s1 := set_pending false s in
  let snapshot := callbacks s1 in
  let s2 := set_callbacks [] s1 in
  foldl (fun st t => invoke t st) s2 snapshot.

(** ** The host driving the module *)

(** A synchronous turn of application code runs to its end (whatever it
    throws goes to the application, not to this module); or the host
    honours one owed run of [flushCallbacks]; or a thenable that a promise
    follows calls back, resolving the promise with a value of its own or
    rejecting it. *)
Inductive step : state -> state -> Prop :=
| step_turn c s : step s (run_code c s).1
| step_flush s n s' :
    scheduled s = S n ->
    flushCallbacks (set_scheduled n s) = Some s' ->
    step s s'
| step_thenable_resolves s p t v :
    promises s !! p = Some (Following t) ->
    step s (set_promises (<[p := resolution v]> (promises s)) s)
| step_thenable_rejects s p t r :
    promises s !! p = Some (Following t) ->
    step s (set_promises (<[p := Rejected r]> (promises s)) s).

Definition reachable (s : state) : Prop := rtc step module_init s.

(** A turn that is a plain sequence of [nextTick] calls. *)
Definition nextTicks (l : list (option (value -> code) * value)) (s : state) : state :=
  foldl (fun st a => (nextTick a.1 a.2 st).1) s l.

End Scheduler.

(** * Relations and invariants the properties are stated with *)

(** ** What a run may change *)

(** The module-level bindings fixed at initialisation. *)
Definition same_bindings (s s' : state) : Prop :=
  timerFunc s' = timerFunc s /\ isUsingMicroTask s' = isUsingMicroTask s.

(** The queue only grows at its end, by tasks of fresh activations. *)
Definition grows (s s' : state) : Prop :=
  exists ts, callbacks s' = callbacks s ++ ts /\
             map task_id ts = seq (calls s) (length ts) /\
             calls s' = calls s + length ts.

(** The flag only goes up, and both the triggers logged and the runs owed
    by the host go up with it, by one. *)
Definition flag_counts (s s' : state) : Prop :=
  (pending s = true -> pending s' = true) /\
  triggers (log s') + Nat.b2n (pending s) = triggers (log s) + Nat.b2n (pending s') /\
  scheduled s' + Nat.b2n (pending s) = scheduled s + Nat.b2n (pending s').

(** No task is invoked. *)
Definition same_invoked (s s' : state) : Prop :=
  invoked (log s') = invoked (log s).

(** Nothing is reported, no resolve function is called. *)
Definition quiet (s s' : state) : Prop :=
  reports (log s') = reports (log s) /\
  exists ps, promises s' = promises s ++ ps /\ Forall (fun x => x = Unresolved) ps.

(** Every path through [nextTick], on a state given by its fields. *)
Ltac nextTick_cases h cb s :=
  unfold nextTick, call_timerFunc;
  destruct s as [? ? [] [] ? ? ? ? ? ?];
  destruct cb, (Promise_defined h), (isIOS h); simpl.

(** ** The invariant of the module's state *)

(** The bindings are those of initialisation; the host owes one flush
    exactly when the flag is set, and the flag is set exactly when tasks are
    queued; tasks queued or invoked, and the [_resolve] variables assigned,
    belong to activations that have happened; distinct activations hold
    distinct promises. *)
Record wf (h : host) (s : state) : Prop := Wf {
  wf_timerFunc : timerFunc s = timerFunc (module_init h);
  wf_micro : isUsingMicroTask s = isUsingMicroTask (module_init h);
  wf_scheduled : scheduled s = Nat.b2n (pending s);
  wf_pending : pending s = true <-> callbacks s <> [];
  wf_queue : Forall (fun t => task_id t < calls s) (callbacks s);
  wf_invoked : Forall (fun id => id < calls s) (invoked (log s));
  wf_resolvers : forall id p,
    resolvers s !! id = Some p -> id < calls s /\ p < length (promises s);
  wf_resolvers_inj : forall id1 id2 p,
    resolvers s !! id1 = Some p -> resolvers s !! id2 = Some p -> id1 = id2
}.

Definition keeps_wf (h : host) (s s' : state) : Prop := wf h s -> wf h s'.

(** The flag is set exactly when tasks are queued. *)
Definition batch_consistent (s : state) : Prop :=
  pending s = true <-> callbacks s <> [].

(** ** Failing tasks *)

(** What the callback of task [t], started in state [s], throws. *)
Definition thrown h (t : task) (s : state) : option value :=
  match task_cb t with
  | Some f => (run_code h (f (task_ctx t)) s).2
  | None => None
  end.

(** The reports owed to the tasks [ts] invoked in turn from [s]: one for
    each task whose callback throws. *)
Fixpoint owed_reports h (ts : list task) (s : state) : list event :=
  match ts with
  | [] => []
  | t :: ts' =>
      match thrown h t (emit (EInvoke (task_id t)) s) with
      | Some e => [EHandleError e (task_ctx t) "nextTick"]
      | None => []
      end ++ owed_reports h ts' (invoke h t s)
  end.

(** ** Following one promise *)





(** The states in which the tasks [ts], invoked in turn from [s], start. *)
Fixpoint run_states (h : host) (ts : list task) (s : state) : list state :=
  match ts with
  | [] => []
  | t :: ts' => s :: run_states h ts' (invoke h t s)
  end.

(** The states in which a flush called in state [s] invokes its tasks. *)
Definition flush_states (h : host) (s : state) : list state :=
  run_states h (callbacks s) (set_callbacks [] (set_pending false s)).

(** ** A host without Promise *)

(** No promise was ever created. *)
Definition no_promises (s : state) : Prop :=
  resolvers s = ∅ /\ promises s = [].

(** ** The choice of timerFunc *)

(** The tests of lines 66, 84-90 and 110. *)
Definition promise_usable (h : host) : bool :=
  Promise_defined h && Promise_isNative h.

Definition observer_usable (h : host) : bool :=
  negb (isIE h) && MutationObserver_defined h &&
  (MutationObserver_isNative h ||
   String.eqb (MutationObserver_toString h) "[object MutationObserverConstructor]").

Definition immediate_usable (h : host) : bool :=
  setImmediate_defined h && setImmediate_isNative h.

(** The preference list of section 4.1, each strategy with whether the
    host offers it; the timer fallback is taken to be there. *)
Definition preference (h : host) : list (strategy * bool) :=
  [ (ViaPromise, promise_usable h);
    (ViaMutationObserver, observer_usable h);
    (ViaSetImmediate, immediate_usable h);
    (ViaSetTimeout, true) ].

Definition first_usable (h : host) : option strategy :=
  fst <$> List.find snd (preference h).

(** ** Concrete hosts, callbacks and turns *)

Definition native_observer : string := "function MutationObserver() { [native code] }".

(** A current browser: native Promise. *)
Definition host_modern : host :=
  Host true true false false true true native_observer false false.

(** PhantomJS: no Promise, the MutationObserver constructor stub. *)
Definition host_phantom : host :=
  Host false false false false true false "[object MutationObserverConstructor]"
       false false.

(** IE with a Promise polyfill: native MutationObserver and setImmediate. *)
Definition host_ie : host :=
  Host true false true false true true native_observer true true.

(** Nothing but setTimeout. *)
Definition host_bare : host :=
  Host false false false false false false "" false false.

(** The callbacks of the scenarios of section 8. *)
Definition fnB : value -> code := fun _ => Return.
Definition fnC : value -> code := fun _ => Return.
Definition fnA_schedules_fnC : value -> code :=
  fun _ => NextTick (Some fnC) VUndefined (fun _ => Return).
Definition fnThatThrows : value -> code := fun _ => Throw (VObject 7).

Definition turn_A_B : list (option (value -> code) * value) :=
  [(Some fnA_schedules_fnC, VUndefined); (Some fnB, VObject 1)].

(** The state after a first turn calling [nextTick] three times. *)
Definition after_turn (h : host) : state :=
  (run_code h (NextTick (Some fnA_schedules_fnC) VUndefined
                 (fun _ => NextTick (Some fnThatThrows) (VObject 2)
                 (fun _ => NextTick (Some fnB) VUndefined (fun _ => Return))))
     (module_init h)).1.

(** ** Further readings of the log *)

Definition is_mutation (e : event) : option nat :=
  match e with EMutate d => Some d | _ => None end.

(** The values written to the observed text node, in order. *)
Definition mutations (l : list event) : list nat := omap is_mutation l.

Definition is_noop_timer (e : event) : bool :=
  match e with ESetTimeoutNoop => true | _ => false end.

Definition noop_timers (l : list event) : nat := length (filter is_noop_timer l).

(** The calls a module whose [timerFunc] is [f] may make: its own trigger,
    the empty timer next to the Promise trigger when [ios], and the calls
    of a flush. *)
Definition call_allowed (ios : bool) (f : strategy) (e : event) : bool :=
  match e, f with
  | EPromiseThen, ViaPromise => true
  | ESetTimeoutNoop, ViaPromise => ios
  | EMutate _, ViaMutationObserver => true
  | ESetImmediate, ViaSetImmediate => true
  | ESetTimeout d, ViaSetTimeout => d =? 0
  | EInvoke _, _ | EHandleError _ _ _, _ | EResolve _ _, _ => true
  | _, _ => false
  end.

Definition uses_promise (f : strategy) : bool :=
  match f with ViaPromise => true | _ => false end.

Definition host_calls_ok (h : host) (s : state) : Prop :=
  Forall (fun e => call_allowed (isIOS h) (timerFunc s) e = true) (log s) /\
  noop_timers (log s) =
    if isIOS h && uses_promise (timerFunc s) then triggers (log s) else 0.

(** With the MutationObserver trigger, the k-th write to the text node is
    k mod 2 (counting from 0) and [counter] holds the last value written,
    1 at the start. *)
Definition observer_in_step (s : state) : Prop :=
  timerFunc s = ViaMutationObserver ->
  mutations (log s) = map (fun k => k mod 2) (seq 0 (length (mutations (log s)))) /\
  counter s = S (length (mutations (log s))) mod 2.

(** Every activation so far is either invoked or queued, in call order. *)
Definition in_call_order (s : state) : Prop :=
  invoked (log s) ++ map task_id (callbacks s) = seq 0 (calls s).

(** A report made by a task of this module. *)
Definition tagged (e : event) : Prop :=
  exists x c, e = EHandleError x c "nextTick".

(** Every unresolved promise has the task that resolves it among the tasks
    [rem] still to be invoked by the running flush or in the live queue;
    [_resolve] variables belong to past activations. *)
Definition resolver_queued (rem : list task) (s : state) : Prop :=
  (forall id p, resolvers s !! id = Some p -> id < calls s) /\
  (forall p, promises s !! p = Some Unresolved ->
     exists t, t ∈ rem ++ callbacks s /\ task_cb t = None /\
               resolvers s !! task_id t = Some p).

(** iOS with native Promise. *)
Definition host_ios : host :=
  Host true true false true true true
       "function MutationObserver() { [native code] }" false false.

(** The state after that turn and the flush it asked for. *)
Definition after_flush (h : host) : state :=
  flush_spec h (set_scheduled 0 (after_turn h)).

(** The state after a further turn asking for a promise. *)
Definition awaiting (h : host) : state :=
  (run_code h (NextTick None (VObject 3) (fun _ => Return)) (after_flush h)).1.

(** * Properties *)

(** ** Reading a log that grows *)

Lemma invoked_app l1 l2 : invoked (l1 ++ l2) = invoked l1 ++ invoked l2.
Proof. apply omap_app. Qed.

Lemma triggers_app l1 l2 : triggers (l1 ++ l2) = triggers l1 + triggers l2.
Proof. unfold triggers. by rewrite filter_app, length_app. Qed.

Lemma reports_app l1 l2 : reports (l1 ++ l2) = reports l1 ++ reports l2.
Proof. apply filter_app. Qed.

Lemma triggers_snoc l e : triggers (l ++ [e]) = triggers l + Nat.b2n (is_trigger e).
Proof. rewrite triggers_app. by destruct e. Qed.

Lemma invoked_snoc l e :
  invoked (l ++ [e]) = invoked l ++ match is_invoke e with Some id => [id] | None => [] end.
Proof. rewrite invoked_app. by destruct e. Qed.

Lemma reports_snoc l e :
  reports (l ++ [e]) = reports l ++ (if is_report e then [e] else []).
Proof. rewrite reports_app. by destruct e. Qed.

(** ** The loop of flushCallbacks never reads past the snapshot *)

Lemma for_copies_foldl h copies i n s :
  i + n = length copies ->
  for_copies h copies i n s = Some (foldl (fun st t => invoke h t st) s (drop i copies)).
Proof.
  revert i s. induction n as [|n IH]; intros i s Hlen; simpl.
  - rewrite drop_ge by lia. done.
  - destruct (copies !! i) as [t|] eqn:Ht.
    + rewrite (drop_S _ _ _ Ht). simpl. apply IH. lia.
    + apply lookup_ge_None in Ht. lia.
Qed.

Lemma flushCallbacks_flush_spec h s : flushCallbacks h s = Some (flush_spec h s).
Proof.
  unfold flushCallbacks, flush_spec. rewrite for_copies_foldl by (simpl; lia).
  by rewrite !drop_0, take_0.
Qed.

(** ** Lifting a relation from the primitive operations to whole runs *)

Section Lift.

Variable h : host.
Variable R : state -> state -> Prop.
Hypothesis R_refl : forall s, R s s.
Hypothesis R_trans : forall s1 s2 s3, R s1 s2 -> R s2 s3 -> R s1 s3.
Hypothesis R_nextTick : forall cb ctx s, R s (nextTick h cb ctx s).1.

Lemma run_code_lift c s : R s (run_code h c s).1.
Proof.
  revert s. induction c as [| e | cb ctx k IH]; intros s; simpl; auto.
  destruct (nextTick h cb ctx s) as [s' r] eqn:E.
  eapply R_trans; [|apply IH]. by rewrite <- (f_equal fst E : _ = s').
Qed.

Lemma nextTicks_lift l s : R s (nextTicks h l s).
Proof.
  revert s. induction l as [|a l IH]; intros s; simpl; auto.
  eapply R_trans; [apply R_nextTick | apply IH].
Qed.

Hypothesis R_handleError : forall e ctx info s, R s (handleError e ctx info s).
Hypothesis R_resolve : forall p v s, R s (resolve p v s).

Lemma call_task_lift t s : R s (call_task h t s).
Proof.
  unfold call_task. destruct (task_cb t) as [f|].
  - pose proof (run_code_lift (f (task_ctx t)) s) as Hc.
    destruct (run_code h (f (task_ctx t)) s) as [s' [e|]]; simpl in Hc; eauto.
  - destruct (resolvers s !! task_id t); auto.
Qed.

Hypothesis R_invoke : forall id s, R s (emit (EInvoke id) s).

Lemma invoke_lift t s : R s (invoke h t s).
Proof. unfold invoke. eapply R_trans; [apply R_invoke | apply call_task_lift]. Qed.

Lemma foldl_invoke_lift ts s : R s (foldl (fun st t => invoke h t st) s ts).
Proof.
  revert s. induction ts as [|t ts IH]; intros s; simpl; auto.
  eapply R_trans; [apply invoke_lift | apply IH].
Qed.

End Lift.

(** ** What the primitive operations leave alone *)

Lemma same_bindings_nextTick h cb ctx s : same_bindings s (nextTick h cb ctx s).1.
Proof. nextTick_cases h cb s; by split. Qed.

Lemma grows_refl s : grows s s.
Proof. exists []. simpl. rewrite app_nil_r. split_and!; auto with lia. Qed.

Lemma grows_trans s1 s2 s3 : grows s1 s2 -> grows s2 s3 -> grows s1 s3.
Proof.
  intros (ts1 & Hq1 & Hid1 & Hc1) (ts2 & Hq2 & Hid2 & Hc2).
  exists (ts1 ++ ts2). rewrite Hq2, Hq1, Hc2, Hc1, map_app, length_app, seq_app.
  rewrite Hid1, Hid2, Hc1. split_and!; auto with lia. by rewrite app_assoc.
Qed.

Lemma grows_nextTick h cb ctx s : grows s (nextTick h cb ctx s).1.
Proof.
  exists [Task (calls s) cb ctx].
  nextTick_cases h cb s; split_and!; auto with lia.
Qed.

Lemma flag_counts_refl s : flag_counts s s.
Proof. by split_and!. Qed.

Lemma flag_counts_trans s1 s2 s3 :
  flag_counts s1 s2 -> flag_counts s2 s3 -> flag_counts s1 s3.
Proof.
  intros (Hp1 & Ht1 & Hs1) (Hp2 & Ht2 & Hs2). split_and!; [auto | lia | lia].
Qed.

Lemma flag_counts_nextTick h cb ctx s : flag_counts s (nextTick h cb ctx s).1.
Proof.
  unfold flag_counts.
  nextTick_cases h cb s; rewrite ?triggers_snoc; simpl; split_and!; auto with lia.
Qed.

Lemma same_invoked_nextTick h cb ctx s : same_invoked s (nextTick h cb ctx s).1.
Proof.
  unfold same_invoked.
  nextTick_cases h cb s; rewrite ?invoked_snoc; simpl; by rewrite ?app_nil_r.
Qed.

Lemma quiet_refl s : quiet s s.
Proof. split; [done|]. exists []. by rewrite app_nil_r. Qed.

Lemma quiet_trans s1 s2 s3 : quiet s1 s2 -> quiet s2 s3 -> quiet s1 s3.
Proof.
  intros (Hr1 & ps1 & Hp1 & Hu1) (Hr2 & ps2 & Hp2 & Hu2). split; [congruence|].
  exists (ps1 ++ ps2). rewrite Hp2, Hp1, app_assoc. split; [done|].
  by apply Forall_app.
Qed.

Lemma quiet_nextTick h cb ctx s : quiet s (nextTick h cb ctx s).1.
Proof.
  unfold quiet.
  nextTick_cases h cb s; rewrite ?reports_snoc; simpl; rewrite ?app_nil_r;
    (split; [done|]);
    first [ by (exists [Unresolved]; split; [done | repeat constructor])
          | by (exists []; rewrite app_nil_r) ].
Qed.

Lemma same_bindings_refl s : same_bindings s s.
Proof. by split. Qed.

Lemma same_bindings_trans s1 s2 s3 :
  same_bindings s1 s2 -> same_bindings s2 s3 -> same_bindings s1 s3.
Proof. intros [] []. split; congruence. Qed.

Lemma same_invoked_refl s : same_invoked s s.
Proof. done. Qed.

Lemma same_invoked_trans s1 s2 s3 :
  same_invoked s1 s2 -> same_invoked s2 s3 -> same_invoked s1 s3.
Proof. unfold same_invoked. congruence. Qed.

(** ** Whole runs *)

Lemma run_code_same_bindings h c s : same_bindings s (run_code h c s).1.
Proof.
  apply run_code_lift;
    eauto using same_bindings_refl, same_bindings_trans, same_bindings_nextTick.
Qed.

Lemma run_code_grows h c s : grows s (run_code h c s).1.
Proof. apply run_code_lift; eauto using grows_refl, grows_trans, grows_nextTick. Qed.

Lemma run_code_flag_counts h c s : flag_counts s (run_code h c s).1.
Proof.
  apply run_code_lift;
    eauto using flag_counts_refl, flag_counts_trans, flag_counts_nextTick.
Qed.

Lemma run_code_same_invoked h c s : same_invoked s (run_code h c s).1.
Proof.
  apply run_code_lift;
    eauto using same_invoked_refl, same_invoked_trans, same_invoked_nextTick.
Qed.

Lemma run_code_quiet h c s : quiet s (run_code h c s).1.
Proof. apply run_code_lift; eauto using quiet_refl, quiet_trans, quiet_nextTick. Qed.

Lemma call_task_same_bindings h t s : same_bindings s (call_task h t s).
Proof.
  apply call_task_lift;
    eauto using same_bindings_refl, same_bindings_trans, same_bindings_nextTick;
    intros; by split.
Qed.

Lemma call_task_grows h t s : grows s (call_task h t s).
Proof.
  apply call_task_lift; eauto using grows_refl, grows_trans, grows_nextTick;
    intros; exists []; simpl; rewrite app_nil_r; auto with lia.
Qed.

Lemma call_task_flag_counts h t s : flag_counts s (call_task h t s).
Proof.
  apply call_task_lift;
    eauto using flag_counts_refl, flag_counts_trans, flag_counts_nextTick.
  - intros e ctx info s0. unfold flag_counts. simpl. rewrite triggers_snoc. simpl.
    auto with lia.
  - intros p v s0. unfold flag_counts. simpl. rewrite triggers_snoc. simpl.
    auto with lia.
Qed.

Lemma call_task_same_invoked h t s : same_invoked s (call_task h t s).
Proof.
  apply call_task_lift;
    eauto using same_invoked_refl, same_invoked_trans, same_invoked_nextTick.
  - intros e ctx info s0. unfold same_invoked. simpl. rewrite invoked_snoc. simpl.
    by rewrite app_nil_r.
  - intros p v s0. unfold same_invoked. simpl. rewrite invoked_snoc. simpl.
    by rewrite app_nil_r.
Qed.

Lemma invoke_invoked h t s :
  invoked (log (invoke h t s)) = invoked (log s) ++ [task_id t].
Proof.
  unfold invoke. rewrite (call_task_same_invoked h t). simpl.
  by rewrite invoked_snoc.
Qed.

Lemma foldl_invoke_invoked h ts s :
  invoked (log (foldl (fun st t => invoke h t st) s ts)) =
  invoked (log s) ++ map task_id ts.
Proof.
  revert s. induction ts as [|t ts IH]; intros s; simpl.
  - by rewrite app_nil_r.
  - rewrite IH, invoke_invoked, <- app_assoc. done.
Qed.

Lemma foldl_invoke_same_bindings h ts s :
  same_bindings s (foldl (fun st t => invoke h t st) s ts).
Proof.
  apply foldl_invoke_lift;
    eauto using same_bindings_refl, same_bindings_trans, same_bindings_nextTick;
    intros; by split.
Qed.

Lemma foldl_invoke_grows h ts s : grows s (foldl (fun st t => invoke h t st) s ts).
Proof.
  apply foldl_invoke_lift; eauto using grows_refl, grows_trans, grows_nextTick;
    intros; exists []; simpl; rewrite app_nil_r; auto with lia.
Qed.

Lemma foldl_invoke_flag_counts h ts s :
  flag_counts s (foldl (fun st t => invoke h t st) s ts).
Proof.
  apply foldl_invoke_lift;
    eauto using flag_counts_refl, flag_counts_trans, flag_counts_nextTick;
    intros; unfold flag_counts; simpl; rewrite triggers_snoc; simpl; auto with lia.
Qed.

(** ** One call of nextTick, field by field *)

Lemma nextTick_fields h cb ctx s :
  let s' := (nextTick h cb ctx s).1 in
  callbacks s' = callbacks s ++ [Task (calls s) cb ctx] /\
  calls s' = S (calls s) /\
  pending s' = true /\
  (if negb (truthy cb) && Promise_defined h
   then resolvers s' = <[calls s := length (promises s)]> (resolvers s) /\
        promises s' = promises s ++ [Unresolved] /\
        (nextTick h cb ctx s).2 = Some (length (promises s))
   else resolvers s' = resolvers s /\ promises s' = promises s /\
        (nextTick h cb ctx s).2 = None).
Proof. nextTick_cases h cb s; by split_and!. Qed.

(** ** The invariant holds initially and is kept *)

Lemma module_init_initial h : exists f b, module_init h = initial f b.
Proof. unfold module_init. repeat case_match; eauto. Qed.

Lemma wf_module_init h : wf h (module_init h).
Proof.
  destruct (module_init_initial h) as (f & b & E).
  split; try done; rewrite E; simpl; done.
Qed.

Lemma keeps_wf_nextTick h cb ctx s : keeps_wf h s (nextTick h cb ctx s).1.
Proof.
  intros [Htf Hmi Hsc Hpe Hq Hin Hrs Hinj].
  pose proof (nextTick_fields h cb ctx s) as (Hcb & Hca & Hp & Hpr).
  pose proof (same_bindings_nextTick h cb ctx s) as [Hb1 Hb2].
  pose proof (flag_counts_nextTick h cb ctx s) as (_ & _ & Hfc).
  pose proof (same_invoked_nextTick h cb ctx s) as Hsi.
  set (s' := (nextTick h cb ctx s).1) in *.
  assert (resolvers s' = resolvers s /\ promises s' = promises s \/
          resolvers s' = <[calls s := length (promises s)]> (resolvers s) /\
          promises s' = promises s ++ [Unresolved]) as Hcases.
  { destruct (negb (truthy cb) && Promise_defined h);
      destruct Hpr as (? & ? & _); auto. }
  split.
  - congruence.
  - congruence.
  - rewrite Hp. rewrite Hp in Hfc. destruct (pending s); simpl in *; lia.
  - rewrite Hp, Hcb. split; [|done]. intros _ Hnil.
    apply app_eq_nil in Hnil as [_ ?]. done.
  - rewrite Hcb, Hca. apply Forall_app. split.
    + eapply Forall_impl; [exact Hq|]. intros t Ht. simpl in *. lia.
    + apply Forall_singleton. simpl. lia.
  - rewrite Hsi, Hca. eapply Forall_impl; [exact Hin|]. intros id Hid.
    simpl in *. lia.
  - intros id p. rewrite Hca.
    destruct Hcases as [[-> ->]|[-> ->]].
    + intros H. apply Hrs in H. lia.
    + rewrite length_app. simpl. intros [[<- <-]|[_ H]]%lookup_insert_Some; [lia|].
      apply Hrs in H. lia.
  - intros id1 id2 p.
    destruct Hcases as [[-> _]|[-> _]]; [apply Hinj|].
    intros [[<- <-]|[? H1]]%lookup_insert_Some [[<- E]|[? H2]]%lookup_insert_Some;
      try done.
    + apply Hrs in H2. lia.
    + apply Hrs in H1. lia.
    + eauto.
Qed.

Lemma keeps_wf_refl h s : keeps_wf h s s.
Proof. by intros ?. Qed.

Lemma keeps_wf_trans h s1 s2 s3 :
  keeps_wf h s1 s2 -> keeps_wf h s2 s3 -> keeps_wf h s1 s3.
Proof. unfold keeps_wf. auto. Qed.

Lemma keeps_wf_resolve h p v s : keeps_wf h s (resolve p v s).
Proof.
  intros [Htf Hmi Hsc Hpe Hq Hin Hrs Hinj]. split; simpl; auto.
  - rewrite invoked_snoc. simpl. by rewrite app_nil_r.
  - intros id q Hl. rewrite length_alter. auto.
Qed.

Lemma keeps_wf_handleError h e ctx info s : keeps_wf h s (handleError e ctx info s).
Proof.
  intros [Htf Hmi Hsc Hpe Hq Hin Hrs Hinj]. split; simpl; auto.
  rewrite invoked_snoc. simpl. by rewrite app_nil_r.
Qed.

Lemma run_code_wf h c s : wf h s -> wf h (run_code h c s).1.
Proof.
  apply (run_code_lift h (keeps_wf h));
    eauto using keeps_wf_refl, keeps_wf_trans, keeps_wf_nextTick.
Qed.

Lemma call_task_wf h t s : wf h s -> wf h (call_task h t s).
Proof.
  apply (call_task_lift h (keeps_wf h));
    eauto using keeps_wf_refl, keeps_wf_trans, keeps_wf_nextTick,
      keeps_wf_resolve, keeps_wf_handleError.
Qed.

Lemma invoke_wf h t s : wf h s -> task_id t < calls s -> wf h (invoke h t s).
Proof.
  intros [Htf Hmi Hsc Hpe Hq Hin Hrs Hinj] Hid. apply call_task_wf.
  split; simpl; auto.
  rewrite invoked_snoc. simpl. apply Forall_app. split; [done|].
  by apply Forall_singleton.
Qed.

Lemma grows_calls s s' : grows s s' -> calls s <= calls s'.
Proof. intros (ts & _ & _ & ->). lia. Qed.

Lemma foldl_invoke_wf h ts s :
  wf h s -> Forall (fun t => task_id t < calls s) ts ->
  wf h (foldl (fun st t => invoke h t st) s ts).
Proof.
  revert s. induction ts as [|t ts IH]; intros s Hwf Hts; simpl; [done|].
  apply Forall_cons in Hts as [Ht Hts]. apply IH.
  - by apply invoke_wf.
  - eapply Forall_impl; [exact Hts|]. intros t' Ht'. simpl in *.
    pose proof (grows_calls _ _ (foldl_invoke_grows h [t] s)). simpl in *. lia.
Qed.

Lemma flush_spec_wf h s n :
  wf h s -> scheduled s = S n -> wf h (flush_spec h (set_scheduled n s)).
Proof.
  intros [Htf Hmi Hsc Hpe Hq Hin Hrs Hinj] Hn. unfold flush_spec. simpl.
  apply foldl_invoke_wf; [|done].
  split; simpl; auto.
  - destruct (pending s); simpl in *; lia.
  - split; [done | by intros []].
Qed.

Lemma wf_set_promise h p x s :
  wf h s -> wf h (set_promises (<[p := x]> (promises s)) s).
Proof.
  intros [Htf Hmi Hsc Hpe Hq Hin Hrs Hinj]. split; simpl; auto.
  intros id q Hl. rewrite length_insert. auto.
Qed.

Lemma step_wf h s s' : step h s s' -> wf h s -> wf h s'.
Proof.
  intros [c s0 | s0 n s1 Hn Hf | s0 p t v Hp | s0 p t r Hp] Hwf.
  - by apply run_code_wf.
  - rewrite flushCallbacks_flush_spec in Hf. injection Hf as <-.
    by apply flush_spec_wf.
  - by apply wf_set_promise.
  - by apply wf_set_promise.
Qed.

Lemma rtc_step_wf h s s' : rtc (step h) s s' -> wf h s -> wf h s'.
Proof. induction 1; eauto using step_wf. Qed.

Lemma reachable_wf h s : reachable h s -> wf h s.
Proof. intros Hr. eapply rtc_step_wf; [exact Hr | apply wf_module_init]. Qed.

(** ** A turn made of nextTick calls *)

Lemma nextTicks_callbacks h l s :
  callbacks (nextTicks h l s) =
    callbacks s ++ imap (fun i a => Task (calls s + i) a.1 a.2) l /\
  calls (nextTicks h l s) = calls s + length l.
Proof.
  revert s. induction l as [|[cb ctx] l IH]; intros s; simpl.
  - rewrite app_nil_r. auto with lia.
  - destruct (IH (nextTick h cb ctx s).1) as [Hq Hc]. fold (nextTicks h l) .
    pose proof (nextTick_fields h cb ctx s) as (Hcb & Hca & _).
    unfold nextTicks in *. rewrite Hq, Hc, Hcb, Hca, <- app_assoc. simpl.
    split; [|lia]. do 2 f_equal; [f_equal; lia|].
    apply imap_ext. intros i [cb' ctx'] _. simpl. f_equal. lia.
Qed.

Lemma nextTicks_same_invoked h l s : same_invoked s (nextTicks h l s).
Proof.
  apply nextTicks_lift;
    eauto using same_invoked_refl, same_invoked_trans, same_invoked_nextTick.
Qed.

Lemma nextTicks_wf h l s : wf h s -> wf h (nextTicks h l s).
Proof.
  apply (nextTicks_lift h (keeps_wf h));
    eauto using keeps_wf_refl, keeps_wf_trans, keeps_wf_nextTick.
Qed.

Lemma flush_spec_grows h s :
  exists ts, callbacks (flush_spec h s) = ts /\
             map task_id ts = seq (calls s) (length ts) /\
             calls (flush_spec h s) = calls s + length ts.
Proof.
  unfold flush_spec.
  destruct (foldl_invoke_grows h (callbacks (set_pending false s))
              (set_callbacks [] (set_pending false s))) as (ts & Hq & Hid & Hc).
  exists ts. simpl in *. auto.
Qed.

Lemma flush_spec_invoked h s :
  invoked (log (flush_spec h s)) = invoked (log s) ++ map task_id (callbacks s).
Proof. unfold flush_spec. by rewrite foldl_invoke_invoked. Qed.

Lemma flush_spec_flag_counts h s :
  triggers (log (flush_spec h s)) =
    triggers (log s) + Nat.b2n (pending (flush_spec h s)) /\
  scheduled (flush_spec h s) = scheduled s + Nat.b2n (pending (flush_spec h s)).
Proof.
  unfold flush_spec.
  pose proof (foldl_invoke_flag_counts h (callbacks (set_pending false s))
                (set_callbacks [] (set_pending false s))) as (_ & Ht & Hs).
  simpl in *. lia.
Qed.

(** * The claims *)

(** C1. The tasks enqueued by the [nextTick] calls of one synchronous turn
    sit in the queue in call order, none of them runs during the turn, and
    the next flush invokes exactly the queued tasks, in that order; every
    task it invokes was scheduled no later than the turn, and whatever is
    queued when it ends was scheduled after the turn. *)
Theorem C1_turn_runs_in_next_flush_in_call_order
    h (l : list (option (value -> code) * value)) (s : state) :
  reachable h s ->
  let s1 := nextTicks h l s in
  callbacks s1 = callbacks s ++ imap (fun i a => Task (calls s + i) a.1 a.2) l /\
  invoked (log s1) = invoked (log s) /\
  exists s2,
    flushCallbacks h s1 = Some s2 /\
    invoked (log s2) = invoked (log s1) ++ map task_id (callbacks s1) /\
    Forall (fun t => task_id t < calls s1) (callbacks s1) /\
    Forall (fun t => calls s1 <= task_id t) (callbacks s2).
Proof.
  intros Hr s1.
  pose proof (nextTicks_wf h l s (reachable_wf h s Hr)) as Hwf. fold s1 in Hwf.
  split; [apply nextTicks_callbacks|].
  split; [apply nextTicks_same_invoked|].
  exists (flush_spec h s1). split; [apply flushCallbacks_flush_spec|].
  split; [apply flush_spec_invoked|].
  split; [apply Hwf|].
  destruct (flush_spec_grows h s1) as (ts & -> & Hid & _).
  apply Forall_forall. intros t Ht.
  assert (task_id t ∈ seq (calls s1) (length ts)) as Hin.
  { rewrite <- Hid. by apply list_elem_of_fmap_2. }
  apply elem_of_seq in Hin. lia.
Qed.

(** C2. [flushCallbacks] always returns, and what it does is what the
    specification says in that order: the flag is false and the live queue
    empty in the state the first task starts from, the tasks invoked are
    the queue's contents at the time of the call, one after another from
    the first to the last. *)
Theorem C2_flushCallbacks_steps h (s : state) :
  flushCallbacks h s = Some (flush_spec h s) /\
  flush_spec h s =
    foldl (fun st t => invoke h t st) (set_callbacks [] (set_pending false s))
          (callbacks s) /\
  invoked (log (flush_spec h s)) = invoked (log s) ++ map task_id (callbacks s).
Proof.
  split; [apply flushCallbacks_flush_spec|].
  split; [done | apply flush_spec_invoked].
Qed.

Lemma foldl_invoke_batch_consistent h ts s :
  batch_consistent s -> batch_consistent (foldl (fun st t => invoke h t st) s ts).
Proof.
  apply (foldl_invoke_lift h (fun s s' => batch_consistent s -> batch_consistent s'));
    auto.
  intros cb ctx s0 _.
  pose proof (nextTick_fields h cb ctx s0) as (Hcb & _ & Hp & _).
  unfold batch_consistent. rewrite Hp, Hcb. split; [|done].
  intros _ Hnil. apply app_eq_nil in Hnil as [_ ?]. done.
Qed.

(** C10. The loop of [flushCallbacks] starts from a state whose queue is
    empty and whose flag is false, everything else being as it was; so
    whatever the tasks do, the flush ends with the flag set exactly when
    tasks are queued.  On an empty queue the flush only resets the flag. *)
Theorem C10_flush_starts_from_fresh_batch h (s : state) :
  (exists s0,
     flushCallbacks h s = for_copies h (callbacks s) 0 (length (callbacks s)) s0 /\
     callbacks s0 = [] /\ pending s0 = false /\
     s0 = set_callbacks [] (set_pending false s)) /\
  (exists s', flushCallbacks h s = Some s' /\ batch_consistent s') /\
  flushCallbacks h (set_callbacks [] s) = Some (set_pending false (set_callbacks [] s)).
Proof.
  split_and!.
  - exists (set_callbacks [] (set_pending false s)). split_and!; try done.
  - exists (flush_spec h s). split; [apply flushCallbacks_flush_spec|].
    unfold flush_spec. apply foldl_invoke_batch_consistent.
    unfold batch_consistent. simpl. split; [done | by intros []].
  - done.
Qed.

(** C3. In a flush the host runs from a reachable state, the tasks invoked
    are those of the snapshot only.  The tasks enqueued while it runs are
    exactly the ones in the live queue when it ends, none of them has been
    invoked, and if there is any the flag is set again, [timerFunc] has been
    called once more and the host owes one run; that next run invokes
    them. *)
Theorem C3_enqueued_during_flush_runs_later h (s : state) (n : nat) :
  reachable h s ->
  scheduled s = S n ->
  exists s2,
    flushCallbacks h (set_scheduled n s) = Some s2 /\
    invoked (log s2) = invoked (log s) ++ map task_id (callbacks s) /\
    map task_id (callbacks s2) = seq (calls s) (calls s2 - calls s) /\
    Forall (fun t => task_id t ∉ invoked (log s2)) (callbacks s2) /\
    (callbacks s2 <> [] ->
       pending s2 = true /\ triggers (log s2) = S (triggers (log s)) /\
       scheduled s2 = 1) /\
    exists s3,
      flushCallbacks h (set_scheduled 0 s2) = Some s3 /\
      invoked (log s3) = invoked (log s2) ++ map task_id (callbacks s2).
Proof.
  intros Hr Hn. pose proof (reachable_wf h s Hr) as Hwf.
  set (s0 := set_scheduled n s).
  exists (flush_spec h s0).
  pose proof (flush_spec_wf h s n Hwf Hn) as Hwf2. fold s0 in Hwf2.
  pose proof (flush_spec_invoked h s0) as Hinv. simpl in Hinv.
  destruct (flush_spec_grows h s0) as (ts & Hq & Hid & Hc). simpl in Hid, Hc.
  split; [apply flushCallbacks_flush_spec|].
  split; [done|].
  split. { rewrite Hq, Hid, Hc. f_equal. lia. }
  split.
  { apply Forall_forall. intros t Ht.
    assert (calls s <= task_id t) as Hge.
    { assert (task_id t ∈ seq (calls s) (length ts)) as Hin.
      { rewrite <- Hid, <- Hq. by apply list_elem_of_fmap_2. }
      apply elem_of_seq in Hin. lia. }
    rewrite Hinv. intros [Hi|Hi]%elem_of_app.
    - pose proof (wf_invoked _ _ Hwf) as Hb.
      rewrite Forall_forall in Hb. apply Hb in Hi. lia.
    - apply list_elem_of_fmap in Hi as (t' & Heq & Ht').
      pose proof (wf_queue _ _ Hwf) as Hb.
      rewrite Forall_forall in Hb. apply Hb in Ht'. lia. }
  split.
  { intros Hne. apply (wf_pending _ _ Hwf2) in Hne.
    pose proof (wf_scheduled _ _ Hwf2) as Hs. rewrite Hne in Hs.
    split; [done|]. split; [|done].
    pose proof (flush_spec_flag_counts h s0) as [Ht _].
    rewrite Hne in Ht. simpl in Ht. lia. }
  exists (flush_spec h (set_scheduled 0 (flush_spec h s0))).
  split; [apply flushCallbacks_flush_spec|]. by rewrite flush_spec_invoked.
Qed.

Lemma call_task_reports h t s :
  reports (log (call_task h t s)) =
  reports (log s) ++
    match thrown h t s with
    | Some e => [EHandleError e (task_ctx t) "nextTick"]
    | None => []
    end.
Proof.
  unfold call_task, thrown. destruct (task_cb t) as [f|].
  - pose proof (run_code_quiet h (f (task_ctx t)) s) as [Hq _].
    destruct (run_code h (f (task_ctx t)) s) as [s' [e|]]; simpl in *.
    + rewrite reports_snoc. simpl. by rewrite Hq.
    + by rewrite app_nil_r.
  - destruct (resolvers s !! task_id t); simpl; rewrite ?reports_snoc; simpl;
      by rewrite ?app_nil_r.
Qed.

Lemma invoke_reports h t s :
  reports (log (invoke h t s)) =
  reports (log s) ++
    match thrown h t (emit (EInvoke (task_id t)) s) with
    | Some e => [EHandleError e (task_ctx t) "nextTick"]
    | None => []
    end.
Proof.
  unfold invoke. rewrite call_task_reports. simpl. rewrite reports_snoc. simpl.
  by rewrite app_nil_r.
Qed.

Lemma foldl_invoke_reports h ts s :
  reports (log (foldl (fun st t => invoke h t st) s ts)) =
  reports (log s) ++ owed_reports h ts s.
Proof.
  revert s. induction ts as [|t ts IH]; intros s; simpl.
  - by rewrite app_nil_r.
  - rewrite IH, invoke_reports, <- app_assoc. done.
Qed.

(** C4. A task whose callback throws reports the error once, with the
    task's [ctx] and the tag 'nextTick', and returns; a task whose callback
    returns reports nothing.  A flush therefore invokes every task of its
    snapshot and makes one report per throwing task, in order.  [nextTick]
    itself invokes no task and reports nothing, so nothing a callback
    throws reaches its caller. *)
Theorem C4_throwing_task_is_isolated h :
  (forall t s,
     reports (log (call_task h t s)) =
     reports (log s) ++
       match thrown h t s with
       | Some e => [EHandleError e (task_ctx t) "nextTick"]
       | None => []
       end) /\
  (forall s, exists s',
     flushCallbacks h s = Some s' /\
     invoked (log s') = invoked (log s) ++ map task_id (callbacks s) /\
     reports (log s') =
       reports (log s) ++
       owed_reports h (callbacks s) (set_callbacks [] (set_pending false s))) /\
  (forall cb ctx s,
     invoked (log (nextTick h cb ctx s).1) = invoked (log s) /\
     reports (log (nextTick h cb ctx s).1) = reports (log s)).
Proof.
  split_and!.
  - apply call_task_reports.
  - intros s. exists (flush_spec h s).
    split; [apply flushCallbacks_flush_spec|].
    split; [apply flush_spec_invoked|].
    unfold flush_spec. by rewrite foldl_invoke_reports.
  - intros cb ctx s. split; [apply same_invoked_nextTick | apply quiet_nextTick].
Qed.

Lemma nextTicks_flag_counts h l s : flag_counts s (nextTicks h l s).
Proof.
  apply nextTicks_lift;
    eauto using flag_counts_refl, flag_counts_trans, flag_counts_nextTick.
Qed.

Lemma nextTicks_pending h l s : l <> [] -> pending (nextTicks h l s) = true.
Proof.
  destruct l as [|[cb ctx] l]; [done|]. intros _. simpl.
  fold (nextTicks h l (nextTick h cb ctx s).1).
  apply (nextTicks_flag_counts h l).
  apply (nextTick_fields h cb ctx s).
Qed.

(** C5. The first [nextTick] after a flush (flag false) sets the flag and
    calls [timerFunc] once; a call made while the flag is set appends its
    task and does nothing else; so a whole batch of calls costs exactly one
    call of [timerFunc], and in every reachable state the host owes at most
    one run of [flushCallbacks], and owes one exactly when the flag is
    set. *)
Theorem C5_one_trigger_per_batch h :
  (forall cb ctx s,
     pending s = false ->
     let s' := (nextTick h cb ctx s).1 in
     pending s' = true /\
     triggers (log s') = S (triggers (log s)) /\
     scheduled s' = S (scheduled s)) /\
  (forall cb ctx s,
     pending s = true ->
     let s' := (nextTick h cb ctx s).1 in
     pending s' = true /\ log s' = log s /\ scheduled s' = scheduled s /\
     callbacks s' = callbacks s ++ [Task (calls s) cb ctx]) /\
  (forall l s,
     pending s = false -> l <> [] ->
     let s' := nextTicks h l s in
     pending s' = true /\
     triggers (log s') = S (triggers (log s)) /\
     scheduled s' = S (scheduled s)) /\
  (forall s,
     reachable h s ->
     scheduled s <= 1 /\ (scheduled s = 1 <-> pending s = true)).
Proof.
  split_and!.
  - intros cb ctx s Hp s'.
    pose proof (nextTick_fields h cb ctx s) as (_ & _ & Hp' & _).
    pose proof (flag_counts_nextTick h cb ctx s) as (_ & Ht & Hs).
    fold s' in Hp', Ht, Hs. rewrite Hp, Hp' in *. simpl in *.
    split_and!; [done | lia | lia].
  - intros cb ctx s Hp s'. subst s'. revert Hp.
    nextTick_cases h cb s; intros; by split_and!.
  - intros l s Hp Hl s'.
    pose proof (nextTicks_pending h l s Hl) as Hp'.
    pose proof (nextTicks_flag_counts h l s) as (_ & Ht & Hs).
    fold s' in Hp', Ht, Hs. rewrite Hp, Hp' in *. simpl in *.
    split_and!; [done | lia | lia].
  - intros s Hr. pose proof (reachable_wf h s Hr) as Hwf.
    pose proof (wf_scheduled _ _ Hwf) as Hs.
    destruct (pending s); simpl in Hs; rewrite Hs; split; try lia; split; try done.
Qed.

(** ** Every activation is invoked or queued, in call order *)

Lemma step_in_call_order h s s' : step h s s' -> in_call_order s -> in_call_order s'.
Proof.
  unfold in_call_order.
  intros [c s0 | s0 n s1 Hn Hf | s0 p t v Hp | s0 p t r Hp] Ho; [| |done|done].
  - destruct (run_code_grows h c s0) as (ts & -> & Hid & ->).
    rewrite (run_code_same_invoked h c s0), map_app, Hid, app_assoc, Ho.
    by rewrite <- seq_app.
  - rewrite flushCallbacks_flush_spec in Hf. injection Hf as <-.
    destruct (flush_spec_grows h (set_scheduled n s0)) as (ts & -> & Hid & ->).
    rewrite flush_spec_invoked, Hid. simpl. rewrite Ho. by rewrite <- seq_app.
Qed.

Lemma reachable_in_call_order h s : reachable h s -> in_call_order s.
Proof.
  intros Hr.
  assert (forall a b, rtc (step h) a b -> in_call_order a -> in_call_order b) as Hind.
  { induction 1; eauto using step_in_call_order. }
  apply (Hind _ _ Hr). by destruct (module_init_initial h) as (f & b & ->).
Qed.



(** ** The promise of one activation through turns and flushes *)

Lemma resolution_resolved v : resolution v <> Unresolved.
Proof. by destruct v. Qed.





Section Tracks.

Variable h : host.
Variable ok : promise_state -> Prop.
Variables (id p : nat) (ctx : value).






Hypothesis ok_resolution : ok (resolution ctx).
Hypothesis ok_resolved : forall x, ok x -> x <> Unresolved.




End Tracks.







(** ** Without Promise nothing is ever created or resolved *)

Lemma foldl_invoke_no_promises h ts s :
  Promise_defined h = false ->
  no_promises s -> no_promises (foldl (fun st t => invoke h t st) s ts).
Proof.
  intros HP.
  apply (foldl_invoke_lift h (fun s s' => no_promises s -> no_promises s')); auto.
  - intros cb ctx s0 [Hr Hp].
    pose proof (nextTick_fields h cb ctx s0) as (_ & _ & _ & Hpr).
    rewrite HP, andb_false_r in Hpr. destruct Hpr as (Hr' & Hp' & _).
    split; congruence.
  - intros p v s0 [Hr Hp]. split; simpl; [done|]. by rewrite Hp.
Qed.

Lemma run_code_no_promises h c s :
  Promise_defined h = false -> no_promises s -> no_promises (run_code h c s).1.
Proof.
  intros HP.
  apply (run_code_lift h (fun s s' => no_promises s -> no_promises s')); auto.
  intros cb ctx s0 [Hr Hp].
  pose proof (nextTick_fields h cb ctx s0) as (_ & _ & _ & Hpr).
  rewrite HP, andb_false_r in Hpr. destruct Hpr as (Hr' & Hp' & _).
    split; congruence.
Qed.

Lemma reachable_no_promises h s :
  Promise_defined h = false -> reachable h s -> no_promises s.
Proof.
  intros HP Hr.
  assert (no_promises (module_init h)) as H0.
  { destruct (module_init_initial h) as (f & b & ->). by split. }
  revert H0. unfold reachable in Hr.
  induction Hr as [|s1 s2 s3 Hs _ IH]; [done|].
  intros H1. apply IH.
  destruct Hs as [c s0 | s0 n s1 Hn Hf | s0 p t v Hp | s0 p t r Hp].
  - by apply run_code_no_promises.
  - rewrite flushCallbacks_flush_spec in Hf. injection Hf as <-.
    unfold flush_spec. by apply foldl_invoke_no_promises.
  - destruct H1 as [_ Hnil]. by rewrite Hnil in Hp.
  - destruct H1 as [_ Hnil]. by rewrite Hnil in Hp.
Qed.

Lemma run_states_no_promises h ts s :
  Promise_defined h = false ->
  no_promises s -> Forall no_promises (run_states h ts s).
Proof.
  intros HP. revert s. induction ts as [|t ts IH]; intros s Hs; simpl.
  - constructor.
  - constructor; [done|]. apply IH.
    by apply (foldl_invoke_no_promises h [t] s HP).
Qed.

(** C7, as the code has it.  Without a Promise in the host, [nextTick]
    without a callback returns [undefined] and creates no promise, but it
    still appends a task of its own to the queue, sets the flag and, if the
    flag was not set, calls [timerFunc].  That task does nothing when it is
    run: its body changes no state in which its [_resolve] is unassigned,
    and no [_resolve] is assigned in any state between turns and flushes
    or in any state in which a flush invokes a task. *)
Theorem C7_no_promise_still_enqueues h (ctx : value) (s : state) :
  Promise_defined h = false ->
  let r := nextTick h None ctx s in
  r.2 = None /\
  callbacks r.1 = callbacks s ++ [Task (calls s) None ctx] /\
  pending r.1 = true /\
  promises r.1 = promises s /\ resolvers r.1 = resolvers s /\
  (pending s = false -> triggers (log r.1) = S (triggers (log s))) /\
  (forall s', reachable h s' -> call_task h (Task (calls s) None ctx) s' = s') /\
  (forall s', resolvers s' !! calls s = None ->
              call_task h (Task (calls s) None ctx) s' = s') /\
  (forall s0 n s',
     reachable h s0 -> scheduled s0 = S n ->
     s' ∈ flush_states h (set_scheduled n s0) ->
     resolvers s' = ∅ /\
     invoke h (Task (calls s) None ctx) s' = emit (EInvoke (calls s)) s').
Proof.
  intros HP r.
  pose proof (nextTick_fields h None ctx s) as (Hcb & _ & Hp & Hpr).
  rewrite HP, andb_false_r in Hpr. destruct Hpr as (Hr & Hps & Hret).
  pose proof (flag_counts_nextTick h None ctx s) as (_ & Ht & _).
  fold r in Hcb, Hp, Hr, Hps, Hret, Ht.
  assert (forall s', resolvers s' !! calls s = None ->
                     call_task h (Task (calls s) None ctx) s' = s') as Hnone.
  { intros s' Hs'. unfold call_task. simpl. by rewrite Hs'. }
  split_and!; try done.
  - intros Hf. rewrite Hf, Hp in Ht. simpl in Ht. lia.
  - intros s' Hs'. destruct (reachable_no_promises h s' HP Hs') as [Hre _].
    apply Hnone. by rewrite Hre, lookup_empty.
  - intros s0 n s' Hr0 Hn Hs'.
    destruct (reachable_no_promises h s0 HP Hr0) as [Hre Hpr0].
    assert (no_promises (set_callbacks [] (set_pending false (set_scheduled n s0))))
      as Hnp by (by split).
    pose proof (run_states_no_promises h (callbacks s0) _ HP Hnp) as Hall.
    rewrite Forall_forall in Hall. destruct (Hall s' Hs') as [Hre' _].
    split; [done|]. unfold invoke. apply Hnone. simpl.
    by rewrite Hre', lookup_empty.
Qed.

(** C8. The [timerFunc] bound at module initialisation is the first usable
    entry of the preference list, which always has one; no turn and no
    flush rebinds it; and the last entry asks for a timer of delay 0. *)
Theorem C8_timerFunc_is_first_usable_and_fixed h :
  first_usable h = Some (timerFunc (module_init h)) /\
  (forall s, reachable h s -> timerFunc s = timerFunc (module_init h)) /\
  (forall s, timerFunc s = ViaSetTimeout ->
     log (call_timerFunc h s) = log s ++ [ESetTimeout 0]).
Proof.
  split_and!.
  - unfold first_usable, preference, promise_usable, observer_usable,
      immediate_usable, module_init.
    destruct (Promise_defined h && Promise_isNative h); [done|].
    destruct (negb (isIE h) && MutationObserver_defined h &&
              (MutationObserver_isNative h ||
               String.eqb (MutationObserver_toString h)
                 "[object MutationObserverConstructor]")); [done|].
    by destruct (setImmediate_defined h && setImmediate_isNative h).
  - intros s Hr. apply (wf_timerFunc _ _ (reachable_wf h s Hr)).
  - intros s Hs. unfold call_timerFunc. by rewrite Hs.
Qed.

(** C9. In every reachable state [isUsingMicroTask] is true exactly when
    [timerFunc] is the Promise or the MutationObserver one, hence false
    exactly for setImmediate and setTimeout. *)
Theorem C9_isUsingMicroTask_iff_microtask_strategy h (s : state) :
  reachable h s ->
  (isUsingMicroTask s = true <->
     timerFunc s = ViaPromise \/ timerFunc s = ViaMutationObserver) /\
  (isUsingMicroTask s = false <->
     timerFunc s = ViaSetImmediate \/ timerFunc s = ViaSetTimeout).
Proof.
  intros Hr. pose proof (reachable_wf h s Hr) as Hwf.
  rewrite (wf_timerFunc _ _ Hwf), (wf_micro _ _ Hwf).
  unfold module_init. repeat case_match; simpl; intuition congruence.
Qed.

(** * Concrete runs *)

Lemma after_turn_reachable h : reachable h (after_turn h).
Proof. apply rtc_once. apply step_turn. Qed.

(** The scenarios of section 8, run. *)

Example strategies_chosen :
  map (fun h => timerFunc (module_init h))
      [host_modern; host_phantom; host_ie; host_bare] =
  [ViaPromise; ViaMutationObserver; ViaSetImmediate; ViaSetTimeout].
Proof. reflexivity. Qed.

Example turn_then_two_flushes :
  exists s1 s2,
    flushCallbacks host_modern (set_scheduled 0 (after_turn host_modern)) = Some s1 /\
    map task_id (callbacks (after_turn host_modern)) = [0; 1; 2] /\
    log s1 = [EPromiseThen; EInvoke 0; EPromiseThen; EInvoke 1;
              EHandleError (VObject 7) (VObject 2) "nextTick"; EInvoke 2] /\
    map task_id (callbacks s1) = [3] /\ pending s1 = true /\ scheduled s1 = 1 /\
    flushCallbacks host_modern (set_scheduled 0 s1) = Some s2 /\
    invoked (log s2) = [0; 1; 2; 3] /\
    callbacks s2 = [] /\ pending s2 = false /\ scheduled s2 = 0.
Proof.
  eexists _, _. split; [vm_compute; reflexivity|].
  split_and!; vm_compute; reflexivity.
Qed.

Example promise_mode_run :
  let r := nextTick host_modern None (VObject 5) (module_init host_modern) in
  r.2 = Some 0 /\ promises r.1 = [Unresolved] /\
  (promises <$> flushCallbacks host_modern (set_scheduled 0 r.1)) =
    Some [Fulfilled (VObject 5)].
Proof. vm_compute. auto. Qed.

(** * Instances of the claims *)

Lemma C1_witness :
  reachable host_modern (module_init host_modern) /\
  let s1 := nextTicks host_modern turn_A_B (module_init host_modern) in
  callbacks s1 =
    callbacks (module_init host_modern) ++
    imap (fun i a => Task (calls (module_init host_modern) + i) a.1 a.2) turn_A_B /\
  invoked (log s1) = invoked (log (module_init host_modern)) /\
  exists s2,
    flushCallbacks host_modern s1 = Some s2 /\
    invoked (log s2) = invoked (log s1) ++ map task_id (callbacks s1) /\
    Forall (fun t => task_id t < calls s1) (callbacks s1) /\
    Forall (fun t => calls s1 <= task_id t) (callbacks s2).
Proof.
  split; [apply rtc_refl|].
  apply (C1_turn_runs_in_next_flush_in_call_order host_modern turn_A_B).
  apply rtc_refl.
Defined.

Lemma C3_witness :
  reachable host_modern (after_turn host_modern) /\
  scheduled (after_turn host_modern) = 1 /\
  exists s2,
    flushCallbacks host_modern (set_scheduled 0 (after_turn host_modern)) = Some s2 /\
    invoked (log s2) =
      invoked (log (after_turn host_modern)) ++
      map task_id (callbacks (after_turn host_modern)) /\
    map task_id (callbacks s2) =
      seq (calls (after_turn host_modern)) (calls s2 - calls (after_turn host_modern)) /\
    Forall (fun t => task_id t ∉ invoked (log s2)) (callbacks s2) /\
    (callbacks s2 <> [] ->
       pending s2 = true /\
       triggers (log s2) = S (triggers (log (after_turn host_modern))) /\
       scheduled s2 = 1) /\
    exists s3,
      flushCallbacks host_modern (set_scheduled 0 s2) = Some s3 /\
      invoked (log s3) = invoked (log s2) ++ map task_id (callbacks s2).
Proof.
  split; [apply after_turn_reachable|]. split; [reflexivity|].
  apply (C3_enqueued_during_flush_runs_later host_modern (after_turn host_modern) 0).
  - apply after_turn_reachable.
  - reflexivity.
Defined.



(** C7 as the specification states it fails on the host without Promise:
    the call appends a task, sets the flag and asks for a timer. *)
Lemma C7_counterexample :
  Promise_defined host_bare = false /\
  (nextTick host_bare None VUndefined (module_init host_bare)).2 = None /\
  callbacks (module_init host_bare) = [] /\
  callbacks (nextTick host_bare None VUndefined (module_init host_bare)).1 =
    [Task 0 None VUndefined] /\
  (nextTick host_bare None VUndefined (module_init host_bare)).1 <>
    module_init host_bare /\
  log (nextTick host_bare None VUndefined (module_init host_bare)).1 =
    [ESetTimeout 0].
Proof.
  split_and!; try reflexivity.
  intros E. apply (f_equal callbacks) in E. discriminate E.
Qed.

Lemma C7_witness :
  Promise_defined host_bare = false /\
  let r := nextTick host_bare None VUndefined (module_init host_bare) in
  r.2 = None /\
  callbacks r.1 =
    callbacks (module_init host_bare) ++
    [Task (calls (module_init host_bare)) None VUndefined] /\
  pending r.1 = true /\
  promises r.1 = promises (module_init host_bare) /\
  resolvers r.1 = resolvers (module_init host_bare) /\
  (pending (module_init host_bare) = false ->
     triggers (log r.1) = S (triggers (log (module_init host_bare)))) /\
  (forall s', reachable host_bare s' ->
     call_task host_bare (Task (calls (module_init host_bare)) None VUndefined) s' = s') /\
  (forall s', resolvers s' !! calls (module_init host_bare) = None ->
     call_task host_bare (Task (calls (module_init host_bare)) None VUndefined) s' = s') /\
  (forall s0 n s',
     reachable host_bare s0 -> scheduled s0 = S n ->
     s' ∈ flush_states host_bare (set_scheduled n s0) ->
     resolvers s' = ∅ /\
     invoke host_bare (Task (calls (module_init host_bare)) None VUndefined) s' =
       emit (EInvoke (calls (module_init host_bare))) s').
Proof.
  split; [reflexivity|].
  apply (C7_no_promise_still_enqueues host_bare VUndefined (module_init host_bare)).
  reflexivity.
Defined.

Lemma C9_witness :
  reachable host_phantom (after_turn host_phantom) /\
  (isUsingMicroTask (after_turn host_phantom) = true <->
     timerFunc (after_turn host_phantom) = ViaPromise \/
     timerFunc (after_turn host_phantom) = ViaMutationObserver) /\
  (isUsingMicroTask (after_turn host_phantom) = false <->
     timerFunc (after_turn host_phantom) = ViaSetImmediate \/
     timerFunc (after_turn host_phantom) = ViaSetTimeout).
Proof.
  split; [apply after_turn_reachable|].
  apply (C9_isUsingMicroTask_iff_microtask_strategy host_phantom
           (after_turn host_phantom)).
  apply after_turn_reachable.
Defined.

(** * Further properties of the module *)

(** ** An induction principle for what every operation keeps *)

Lemma reachable_lift h (P : state -> Prop) :
  P (module_init h) ->
  (forall cb ctx s, P s -> P (nextTick h cb ctx s).1) ->
  (forall e ctx info s, P s -> P (handleError e ctx info s)) ->
  (forall p v s, P s -> P (resolve p v s)) ->
  (forall id s, P s -> P (emit (EInvoke id) s)) ->
  (forall n s, P s -> P (set_callbacks [] (set_pending false (set_scheduled n s)))) ->
  (forall ps s, P s -> P (set_promises ps s)) ->
  forall s, reachable h s -> P s.
Proof.
  intros H0 Hn He Hr Hi Hc Hps s Hs.
  assert (forall a b, rtc (step h) a b -> P a -> P b) as Hind; [|by eapply Hind].
  induction 1 as [|s1 s2 s3 Hstep _ IH]; [done|].
  intros H1. apply IH.
  destruct Hstep as [c s0 | s0 n s1 Hn' Hf | s0 p t v Hp | s0 p t r Hp]; auto.
  - revert H1. apply (run_code_lift h (fun s s' => P s -> P s')); auto.
  - rewrite flushCallbacks_flush_spec in Hf. injection Hf as <-.
    unfold flush_spec.
    apply (foldl_invoke_lift h (fun s s' => P s -> P s')); auto.
Qed.

(** ** Which host primitives are called *)

Lemma noop_timers_snoc l e :
  noop_timers (l ++ [e]) = noop_timers l + Nat.b2n (is_noop_timer e).
Proof. unfold noop_timers. rewrite filter_app, length_app. by destruct e. Qed.

Lemma mutations_snoc l e :
  mutations (l ++ [e]) =
  mutations l ++ match is_mutation e with Some d => [d] | None => [] end.
Proof. unfold mutations. rewrite omap_app. by destruct e. Qed.

Lemma host_calls_ok_nextTick h cb ctx s :
  host_calls_ok h s -> host_calls_ok h (nextTick h cb ctx s).1.
Proof.
  unfold host_calls_ok.
  nextTick_cases h cb s; intros [HF Hn];
    rewrite ?Forall_app, ?Forall_singleton, ?noop_timers_snoc, ?triggers_snoc;
    simpl in *; split_and?; auto with lia.
Qed.

Lemma host_calls_ok_emit h e s :
  is_trigger e = false -> is_noop_timer e = false ->
  (forall ios f, call_allowed ios f e = true) ->
  host_calls_ok h s -> host_calls_ok h (emit e s).
Proof.
  intros Ht Hn Ha [HF Hc]. unfold host_calls_ok. simpl.
  rewrite Forall_app, Forall_singleton, noop_timers_snoc, triggers_snoc, Ht, Hn.
  rewrite !Nat.add_0_r. auto.
Qed.

Lemma reachable_host_calls_ok h s : reachable h s -> host_calls_ok h s.
Proof.
  revert s. apply (reachable_lift h (host_calls_ok h)).
  - destruct (module_init_initial h) as (f & b & ->). split; simpl; [done|].
    by destruct (isIOS h && uses_promise f).
  - apply host_calls_ok_nextTick.
  - intros. by apply host_calls_ok_emit.
  - intros p v s [HF Hc]. unfold host_calls_ok. simpl.
    rewrite Forall_app, Forall_singleton, noop_timers_snoc, triggers_snoc. simpl.
    rewrite !Nat.add_0_r. auto.
  - intros. by apply host_calls_ok_emit.
  - intros n s Hs. exact Hs.
  - intros ps s Hs. exact Hs.
Qed.

(** X1. The module only ever calls the host primitive its [timerFunc] was
    bound to at initialisation, and setTimeout only with delay 0; the empty
    timer of line 81 is set exactly once per call of [timerFunc] on iOS with
    the Promise trigger, and never otherwise. *)
Theorem X1_only_the_selected_primitive_is_called h (s : state) :
  reachable h s ->
  Forall (fun e => call_allowed (isIOS h) (timerFunc (module_init h)) e = true)
         (log s) /\
  noop_timers (log s) =
    if isIOS h && uses_promise (timerFunc (module_init h))
    then triggers (log s) else 0.
Proof.
  intros Hr. rewrite <- (wf_timerFunc _ _ (reachable_wf h s Hr)).
  by apply reachable_host_calls_ok.
Qed.

(** ** The MutationObserver counter *)

Lemma toggle_mod n : (S n mod 2 + 1) mod 2 = n mod 2.
Proof.
  rewrite Nat.Div0.add_mod_idemp_l.
  replace (S n + 1) with (n + 1 * 2) by lia. apply Nat.Div0.mod_add.
Qed.

Lemma observer_triggers ios l :
  Forall (fun e => call_allowed ios ViaMutationObserver e = true) l ->
  triggers l = length (mutations l).
Proof.
  induction l as [|e l IH] using rev_ind; [done|].
  rewrite Forall_app, Forall_singleton. intros [Hl He].
  rewrite triggers_snoc, mutations_snoc, length_app, IH by done.
  by destruct e.
Qed.

Lemma observer_in_step_emit e s :
  is_mutation e = None -> observer_in_step s -> observer_in_step (emit e s).
Proof.
  intros He Hs. unfold observer_in_step in *. simpl.
  rewrite mutations_snoc, He, app_nil_r. done.
Qed.

Lemma observer_in_step_nextTick h cb ctx s :
  observer_in_step s -> observer_in_step (nextTick h cb ctx s).1.
Proof.
  destruct s as [mi q pe tf cnt n rs ps sc lg].
  unfold observer_in_step, nextTick, call_timerFunc.
  destruct pe, cb, (Promise_defined h), tf;
    cbn [fst snd negb andb truthy pending timerFunc counter log promises resolvers
         set_callbacks set_calls set_pending set_resolvers set_promises
         set_counter set_scheduled host_schedule_flush emit callbacks calls
         scheduled isUsingMicroTask];
    try done; try (destruct (isIOS h); done);
    intros Hs _; destruct (Hs eq_refl) as [Hm Hc];
    rewrite mutations_snoc; cbn [is_mutation];
    rewrite length_app, seq_app, map_app, <- Hm, Hc, toggle_mod;
    cbn [length map seq Nat.add];
    (split; [done|]);
    replace (S (length (mutations lg) + 1)) with (length (mutations lg) + 1 * 2)
      by lia;
    by rewrite Nat.Div0.mod_add.
Qed.

Lemma reachable_observer_in_step h s : reachable h s -> observer_in_step s.
Proof.
  revert s. apply (reachable_lift h observer_in_step).
  - destruct (module_init_initial h) as (f & b & ->). by intros _.
  - apply observer_in_step_nextTick.
  - intros. by apply observer_in_step_emit.
  - intros p v s Hs. unfold resolve. apply observer_in_step_emit; [done|].
    exact Hs.
  - intros. by apply observer_in_step_emit.
  - intros n s Hs. exact Hs.
  - intros ps s Hs. exact Hs.
Qed.

(** X2. With the MutationObserver trigger, successive calls of [timerFunc]
    write 0, 1, 0, 1, ... to the text node, so every call changes its data,
    and [counter] is the value last written (1 before the first call). *)
Theorem X2_observer_counter_alternates h (s : state) :
  reachable h s ->
  timerFunc (module_init h) = ViaMutationObserver ->
  mutations (log s) = map (fun k => k mod 2) (seq 0 (triggers (log s))) /\
  counter s = S (triggers (log s)) mod 2.
Proof.
  intros Hr Hmo.
  pose proof (wf_timerFunc _ _ (reachable_wf h s Hr)) as Htf.
  rewrite Hmo in Htf.
  destruct (reachable_host_calls_ok h s Hr) as [HF _]. rewrite Htf in HF.
  rewrite (observer_triggers _ _ HF).
  by apply (reachable_observer_in_step h s Hr).
Qed.

(** ** Every task runs once, in the order of the calls *)

(** X3. Between turns and flushes, the activations invoked so far followed
    by those still queued are 0, 1, 2, ... up to the last call: tasks run in
    the order of their [nextTick] calls across all flushes, none is dropped,
    none runs twice, and no queued task has run. *)
Theorem X3_tasks_run_once_in_call_order h (s : state) :
  reachable h s ->
  invoked (log s) ++ map task_id (callbacks s) = seq 0 (calls s) /\
  NoDup (invoked (log s)) /\
  (forall t, t ∈ callbacks s -> task_id t ∉ invoked (log s)).
Proof.
  intros Hr. pose proof (reachable_in_call_order h s Hr) as Ho.
  unfold in_call_order in Ho.
  pose proof (NoDup_seq 0 (calls s)) as Hnd. rewrite <- Ho in Hnd.
  apply NoDup_app in Hnd as (Hnd & Hdisj & _).
  split_and!; [done | done |].
  intros t Ht Hin. apply (Hdisj _ Hin). by apply list_elem_of_fmap_2.
Qed.

(** ** Reports *)

Lemma owed_reports_bound h ts s :
  length (owed_reports h ts s) <= length ts /\ Forall tagged (owed_reports h ts s).
Proof.
  revert s. induction ts as [|t ts IH]; intros s; simpl; [by split|].
  destruct (IH (invoke h t s)) as [Hl Ht].
  destruct (thrown h t (emit (EInvoke (task_id t)) s)) as [e|]; simpl.
  - split; [lia|]. constructor; [by exists e, (task_ctx t) | done].
  - split; [lia | done].
Qed.

(** X4. Every report the module has made carries the tag 'nextTick', and
    there are never more reports than tasks invoked: a task reports at most
    once, and nothing is reported outside a flush. *)
Theorem X4_reports_tagged_and_bounded h (s : state) :
  reachable h s ->
  Forall tagged (reports (log s)) /\
  length (reports (log s)) <= length (invoked (log s)).
Proof.
  intros Hr.
  assert (forall a b, rtc (step h) a b ->
            Forall tagged (reports (log a)) /\
            length (reports (log a)) <= length (invoked (log a)) ->
            Forall tagged (reports (log b)) /\
            length (reports (log b)) <= length (invoked (log b))) as Hind.
  { induction 1 as [|s1 s2 s3 Hstep _ IH]; [done|].
    intros [Ht Hl]. apply IH.
    destruct Hstep as [c s0 | s0 n s1 Hn Hf | s0 p t v Hp | s0 p t r Hp];
      [| |done|done].
    - destruct (run_code_quiet h c s0) as [-> _].
      by rewrite (run_code_same_invoked h c s0).
    - rewrite flushCallbacks_flush_spec in Hf. injection Hf as <-.
      rewrite flush_spec_invoked. unfold flush_spec.
      rewrite foldl_invoke_reports. simpl.
      destruct (owed_reports_bound h (callbacks s0)
                  (set_callbacks [] (set_pending false (set_scheduled n s0))))
        as [Hb Hg].
      rewrite Forall_app, !length_app, length_map. split; [done | lia]. }
  apply (Hind _ _ Hr). destruct (module_init_initial h) as (f & b & ->).
  simpl. split; [constructor | done].
Qed.

(** ** A polyfilled Promise *)

(** X5. The trigger test asks for a native Promise (line 66), the return
    test only for a defined one (line 156): with a Promise that is defined
    but not native, [timerFunc] is never the Promise trigger, yet
    [nextTick] without a callback still returns a new promise. *)
Theorem X5_polyfilled_promise_still_returned h (ctx : value) (s : state) :
  Promise_defined h = true ->
  Promise_isNative h = false ->
  reachable h s ->
  timerFunc s <> ViaPromise /\
  (nextTick h None ctx s).2 = Some (length (promises s)) /\
  promises (nextTick h None ctx s).1 = promises s ++ [Unresolved].
Proof.
  intros Hd Hn Hr. split.
  - rewrite (wf_timerFunc _ _ (reachable_wf h s Hr)).
    unfold module_init. rewrite Hd, Hn. simpl. by repeat case_match.
  - pose proof (nextTick_fields h None ctx s) as (_ & _ & _ & Hpr).
    simpl in Hpr. rewrite Hd in Hpr. by destruct Hpr as (_ & ? & ?).
Qed.

(** ** No promise is left behind *)

Lemma resolver_queued_nextTick h rem cb ctx s :
  resolver_queued rem s -> resolver_queued rem (nextTick h cb ctx s).1.
Proof.
  intros [HK HU].
  pose proof (nextTick_fields h cb ctx s) as (Hcb & Hca & _ & Hpr).
  set (s' := (nextTick h cb ctx s).1) in *.
  destruct (negb (truthy cb) && Promise_defined h) eqn:Hb.
  - destruct Hpr as (Hr & Hp & _).
    assert (cb = None) as -> by (destruct cb; [done | done]).
    split.
    + intros id p. rewrite Hr, Hca.
      intros [[<- _]|[_ H]]%lookup_insert_Some; [lia|]. apply HK in H. lia.
    + intros p. rewrite Hp, Hcb, Hr.
      intros [[Hlt Hl]|[-> _]]%lookup_snoc_Some.
      * destruct (HU p Hl) as (t & Ht & Hc & Hres). exists t.
        split; [|split; [done|]].
        -- rewrite app_assoc. apply elem_of_app. by left.
        -- rewrite lookup_insert_ne; [done|]. apply HK in Hres. lia.
      * exists (Task (calls s) None ctx). split; [|split; [done|]].
        -- rewrite app_assoc. apply elem_of_app. right.
           by apply list_elem_of_singleton.
        -- simpl. apply lookup_insert_eq.
  - destruct Hpr as (Hr & Hp & _). split.
    + intros id p. rewrite Hr, Hca. intros H. apply HK in H. lia.
    + intros p. rewrite Hp, Hcb, Hr. intros Hl.
      destruct (HU p Hl) as (t & Ht & Hc & Hres). exists t.
      split; [|done]. rewrite app_assoc. apply elem_of_app. by left.
Qed.

Lemma run_code_resolver_queued h rem c s :
  resolver_queued rem s -> resolver_queued rem (run_code h c s).1.
Proof.
  apply (run_code_lift h (fun s s' => resolver_queued rem s -> resolver_queued rem s'));
    auto using resolver_queued_nextTick.
Qed.

Lemma resolver_queued_drop t rem s :
  (task_cb t <> None \/ resolvers s !! task_id t = None \/
   exists p0, resolvers s !! task_id t = Some p0 /\
              promises s !! p0 <> Some Unresolved) ->
  resolver_queued (t :: rem) s -> resolver_queued rem s.
Proof.
  intros Ht [HK HU]. split; [done|]. intros p Hp.
  destruct (HU p Hp) as (t' & Hin & Hc & Hres). exists t'. split; [|done].
  simpl in Hin. apply elem_of_cons in Hin as [->|Hin]; [|done].
  destruct Ht as [Ht|[Ht|(p0 & Hp0 & Hne)]]; [done | congruence |].
  rewrite Hres in Hp0. injection Hp0 as <-. done.
Qed.

Lemma settle_not_unresolved v x : settle v x <> Unresolved.
Proof. destruct x; simpl; [apply resolution_resolved | done | done | done]. Qed.

Lemma resolver_queued_set_promise q y rem s :
  y <> Unresolved ->
  resolver_queued rem s ->
  resolver_queued rem (set_promises (<[q := y]> (promises s)) s).
Proof.
  intros Hy [HK HU]. split; [done|]. simpl. intros p Hp. apply HU.
  destruct (decide (q = p)) as [->|Hne].
  - destruct (decide (p < length (promises s))) as [Hlt|Hge].
    + rewrite list_lookup_insert_eq in Hp by done. congruence.
    + by rewrite list_insert_ge in Hp by lia.
  - by rewrite list_lookup_insert_ne in Hp.
Qed.

Lemma invoke_resolver_queued h t rem s :
  resolver_queued (t :: rem) s -> resolver_queued rem (invoke h t s).
Proof.
  intros Hq. unfold invoke, call_task.
  assert (resolver_queued (t :: rem) (emit (EInvoke (task_id t)) s)) as Hq1.
  { destruct Hq as [HK HU]. by split. }
  destruct (task_cb t) as [f|] eqn:Hcb.
  - pose proof (run_code_resolver_queued h (t :: rem) (f (task_ctx t)) _ Hq1) as Hq2.
    destruct (run_code h (f (task_ctx t)) (emit (EInvoke (task_id t)) s))
      as [s' [e|]]; simpl in *.
    + apply (resolver_queued_drop t); [left; congruence|].
      destruct Hq2 as [HK HU]. by split.
    + apply (resolver_queued_drop t); [left; congruence | done].
  - simpl. destruct (resolvers s !! task_id t) as [p0|] eqn:Hres.
    + apply (resolver_queued_drop t).
      * right. right. exists p0. simpl. split; [done|].
        rewrite list_lookup_alter_eq.
        destruct (promises s !! p0) as [x|]; simpl; [|done].
        intros E. injection E as E. by apply settle_not_unresolved in E.
      * destruct Hq as [HK HU]. split; [done|]. simpl. intros p Hp.
        apply HU. destruct (decide (p0 = p)) as [->|Hne].
        -- rewrite list_lookup_alter_eq in Hp.
           destruct (promises s !! p) as [x|]; simpl in Hp; [|done].
           injection Hp as Hp. by apply settle_not_unresolved in Hp.
        -- by rewrite list_lookup_alter_ne in Hp.
    + apply (resolver_queued_drop t); [right; left; done | done].
Qed.

Lemma foldl_invoke_resolver_queued h ts s :
  resolver_queued ts s -> resolver_queued [] (foldl (fun st t => invoke h t st) s ts).
Proof.
  revert s. induction ts as [|t ts IH]; intros s Hq; simpl; [done|].
  apply IH. by apply invoke_resolver_queued.
Qed.

Lemma reachable_resolver_queued h s : reachable h s -> resolver_queued [] s.
Proof.
  intros Hr.
  assert (forall a b, rtc (step h) a b ->
            resolver_queued [] a -> resolver_queued [] b) as Hind.
  { induction 1 as [|s1 s2 s3 Hstep _ IH]; [done|].
    intros Hq. apply IH.
    destruct Hstep as [c s0 | s0 n s1 Hn Hf | s0 p t v Hp | s0 p t r Hp];
      [| |by apply resolver_queued_set_promise; [apply resolution_resolved|]
         |by apply resolver_queued_set_promise].
    - by apply run_code_resolver_queued.
    - rewrite flushCallbacks_flush_spec in Hf. injection Hf as <-.
      unfold flush_spec. apply foldl_invoke_resolver_queued.
      destruct Hq as [HK HU]. split; [done|]. simpl. intros p Hp.
      destruct (HU p Hp) as (t & Ht & Hc & Hres). exists t.
      split; [|done]. simpl in Ht. by rewrite app_nil_r. }
  apply (Hind _ _ Hr). destruct (module_init_initial h) as (f & b & ->).
  split; simpl; [intros id p H | intros p H]; by rewrite ?lookup_empty in H.
Qed.

(** X6. Between turns and flushes, every promise [nextTick] has returned
    whose resolve function has not been called yet has its resolving task
    in the queue; so when the queue is empty, the resolve function of every
    returned promise has been called: none is left waiting for a task. *)
Theorem X6_unresolved_promise_has_queued_task h (s : state) :
  reachable h s ->
  (forall p, promises s !! p = Some Unresolved ->
     exists t, t ∈ callbacks s /\ task_cb t = None /\
               resolvers s !! task_id t = Some p) /\
  (callbacks s = [] -> Forall (fun x => x <> Unresolved) (promises s)).
Proof.
  intros Hr. destruct (reachable_resolver_queued h s Hr) as [_ HU].
  split; [exact HU|].
  intros Hnil. apply Forall_forall. intros x Hx ->.
  apply list_elem_of_lookup in Hx as [p Hp].
  destruct (HU p Hp) as (t & Ht & _). rewrite Hnil in Ht.
  by apply elem_of_nil in Ht.
Qed.

(** * Instances of the further properties *)

Lemma after_flush_reachable h :
  scheduled (after_turn h) = 1 -> reachable h (after_flush h).
Proof.
  intros Hs. eapply rtc_r; [apply after_turn_reachable|].
  eapply step_flush; [exact Hs | apply flushCallbacks_flush_spec].
Qed.

Lemma X1_witness :
  reachable host_ios (after_flush host_ios) /\
  Forall (fun e => call_allowed (isIOS host_ios)
                     (timerFunc (module_init host_ios)) e = true)
         (log (after_flush host_ios)) /\
  noop_timers (log (after_flush host_ios)) =
    if isIOS host_ios && uses_promise (timerFunc (module_init host_ios))
    then triggers (log (after_flush host_ios)) else 0.
Proof.
  split; [by apply after_flush_reachable|].
  apply (X1_only_the_selected_primitive_is_called host_ios (after_flush host_ios)).
  by apply after_flush_reachable.
Defined.

Lemma X2_witness :
  reachable host_phantom (after_flush host_phantom) /\
  timerFunc (module_init host_phantom) = ViaMutationObserver /\
  mutations (log (after_flush host_phantom)) =
    map (fun k => k mod 2) (seq 0 (triggers (log (after_flush host_phantom)))) /\
  counter (after_flush host_phantom) =
    S (triggers (log (after_flush host_phantom))) mod 2.
Proof.
  split; [by apply after_flush_reachable|]. split; [reflexivity|].
  apply (X2_observer_counter_alternates host_phantom (after_flush host_phantom)).
  - by apply after_flush_reachable.
  - reflexivity.
Defined.

Lemma X3_witness :
  reachable host_modern (after_flush host_modern) /\
  invoked (log (after_flush host_modern)) ++
    map task_id (callbacks (after_flush host_modern)) =
    seq 0 (calls (after_flush host_modern)) /\
  NoDup (invoked (log (after_flush host_modern))) /\
  (forall t, t ∈ callbacks (after_flush host_modern) ->
             task_id t ∉ invoked (log (after_flush host_modern))).
Proof.
  split; [by apply after_flush_reachable|].
  apply (X3_tasks_run_once_in_call_order host_modern (after_flush host_modern)).
  by apply after_flush_reachable.
Defined.

Lemma X4_witness :
  reachable host_modern (after_flush host_modern) /\
  Forall tagged (reports (log (after_flush host_modern))) /\
  length (reports (log (after_flush host_modern))) <=
    length (invoked (log (after_flush host_modern))).
Proof.
  split; [by apply after_flush_reachable|].
  apply (X4_reports_tagged_and_bounded host_modern (after_flush host_modern)).
  by apply after_flush_reachable.
Defined.

Lemma X5_witness :
  Promise_defined host_ie = true /\
  Promise_isNative host_ie = false /\
  reachable host_ie (after_flush host_ie) /\
  timerFunc (after_flush host_ie) <> ViaPromise /\
  (nextTick host_ie None (VObject 4) (after_flush host_ie)).2 =
    Some (length (promises (after_flush host_ie))) /\
  promises (nextTick host_ie None (VObject 4) (after_flush host_ie)).1 =
    promises (after_flush host_ie) ++ [Unresolved].
Proof.
  split; [reflexivity|]. split; [reflexivity|].
  split; [by apply after_flush_reachable|].
  apply (X5_polyfilled_promise_still_returned host_ie (VObject 4)
           (after_flush host_ie)); [reflexivity | reflexivity |].
  by apply after_flush_reachable.
Defined.

Lemma awaiting_reachable h :
  scheduled (after_turn h) = 1 -> reachable h (awaiting h).
Proof.
  intros Hs. eapply rtc_r; [by apply after_flush_reachable | apply step_turn].
Qed.

Lemma X6_witness :
  reachable host_modern (awaiting host_modern) /\
  (forall p, promises (awaiting host_modern) !! p = Some Unresolved ->
     exists t, t ∈ callbacks (awaiting host_modern) /\ task_cb t = None /\
               resolvers (awaiting host_modern) !! task_id t = Some p) /\
  (callbacks (awaiting host_modern) = [] ->
     Forall (fun x => x <> Unresolved) (promises (awaiting host_modern))).
Proof.
  split; [by apply awaiting_reachable|].
  apply (X6_unresolved_promise_has_queued_task host_modern (awaiting host_modern)).
  by apply awaiting_reachable.
Defined.

Example further_runs :
  promises (awaiting host_modern) = [Unresolved] /\
  map task_id (callbacks (awaiting host_modern)) = [3; 4] /\
  log (after_flush host_ios) =
    [EPromiseThen; ESetTimeoutNoop; EInvoke 0; EPromiseThen; ESetTimeoutNoop;
     EInvoke 1; EHandleError (VObject 7) (VObject 2) "nextTick"; EInvoke 2] /\
  mutations (log (after_flush host_phantom)) = [0; 1].
Proof. vm_compute. auto. Qed.
